(** * Snapshot accessors of package rawdb (core/rawdb/accessors_snapshot.go)

    A shallow embedding of the typed get/put/delete/iterate accessors for
    the seven persisted snapshot records, over an abstract key-value store,
    and the properties of these accessors. *)

From Stdlib Require Import ZArith.
From Stdlib.Strings Require Import Byte String.
From stdpp Require Import gmap list sorting.

Local Open Scope Z_scope.

(** ** Bytes and byte slices *)

(** A Go [[]byte]. The nil slice and the empty slice are both the empty
    list: the accessors only take [len] of a slice or hand it on. *)
Abbreviation bytes := (list byte).

#[global] Instance byte_eq_dec : EqDecision byte := Byte.byte_eq_dec.

#[global] Instance byte_countable : Countable byte :=
  inj_countable Byte.to_N Byte.of_N Byte.of_to_N.

(** Go's conversion [byte(v)] of an unsigned integer: the low eight bits. *)
Definition byte_of_Z (v : Z) : byte :=
  default x00 (Byte.of_N (Z.to_N (v mod 256))).

(** Go's conversion [uint64(b)] of a byte. *)
Definition Z_of_byte (b : byte) : Z := Z.of_N (Byte.to_N b).

(** The bytes of a string constant, as [[]byte("...")] gives them. *)
Definition bytes_of_string (s : string) : bytes := list_byte_of_string s.

(** Byte-wise lexicographic order on slices, [bytes.Compare a b <= 0]. *)
Fixpoint bytes_le (a b : bytes) : bool :=
  match a, b with
  | [], _ => true
  | _ :: _, [] => false
  | x :: a', y :: b' =>
      if decide (x = y) then bytes_le a' b'
      else bool_decide (Z_of_byte x < Z_of_byte y)
  end.

(** ** encoding/binary, big endian, 64 bits *)

Definition uint64_max : Z := 2 ^ 64 - 1.

(** [binary.BigEndian.PutUint64(buf[:], v)] on a fresh [[8]byte]. *)
Definition PutUint64 (v : Z) : bytes :=
  [ byte_of_Z (Z.shiftr v 56); byte_of_Z (Z.shiftr v 48);
    byte_of_Z (Z.shiftr v 40); byte_of_Z (Z.shiftr v 32);
    byte_of_Z (Z.shiftr v 24); byte_of_Z (Z.shiftr v 16);
    byte_of_Z (Z.shiftr v 8);  byte_of_Z v ].

(** The value of a byte string read as a big-endian number. *)
Definition be_value (b : bytes) : Z :=
  fold_left (λ acc x, acc * 256 + Z_of_byte x) b 0.

(** ** common.Hash *)

Definition HashLength : nat := 32.

(** [common.Hash] is [[HashLength]byte]: an array of exactly 32 bytes. *)
Record Hash : Type := mkHash {
  hash_bytes : bytes;
  hash_len : length hash_bytes = HashLength
}.

(** [common.Hash{}], the zero value. *)
Definition zero_hash : Hash := mkHash (replicate HashLength x00) eq_refl.

Lemma crop_pad_length (b : bytes) :
  length (replicate (HashLength - length b) x00
          ++ drop (length b - HashLength) b) = HashLength.
Proof.
  rewrite length_app, length_replicate, length_drop. lia.
Qed.

(** Modelled from the spec: [common.BytesToHash] belongs to package
    common, not to rawdb; a snapshot root is a "32-byte hash", so on a
    slice of [HashLength] bytes it is the array holding these bytes.
    Shorter input is left-padded with zeros and longer input keeps its
    last 32 bytes; the accessors never reach these two cases. *)
Definition BytesToHash (b : bytes) : Hash :=
  mkHash (replicate (HashLength - length b) x00
          ++ drop (length b - HashLength) b) (crop_pad_length b).

(** ** Errors and the ways a call can end *)

(** A Go [error] value, by its message. *)
Definition error : Type := string.

(** How a call of an accessor ends: it returns, [log.Crit] ends the
    process with a message and the store's error, or the runtime panics. *)
Inductive outcome (A : Type) : Type :=
  | Returned (a : A)
  | Crit (msg : string) (err : error)
  | Panic (msg : string).
Arguments Returned {A} a.
Arguments Crit {A} msg err.
Arguments Panic {A} msg.

(** [binary.BigEndian.Uint64(b)]: reads [b[0]] to [b[7]], and panics with
    an index out of range when [len(b) < 8]. *)
Definition Uint64 (b : bytes) : outcome Z :=
  match b with
  | b0 :: b1 :: b2 :: b3 :: b4 :: b5 :: b6 :: b7 :: _ =>
      Returned (Z.lor (Z_of_byte b7)
               (Z.lor (Z.shiftl (Z_of_byte b6) 8)
               (Z.lor (Z.shiftl (Z_of_byte b5) 16)
               (Z.lor (Z.shiftl (Z_of_byte b4) 24)
               (Z.lor (Z.shiftl (Z_of_byte b3) 32)
               (Z.lor (Z.shiftl (Z_of_byte b2) 40)
               (Z.lor (Z.shiftl (Z_of_byte b1) 48)
                      (Z.shiftl (Z_of_byte b0) 56))))))))
  | _ => Panic "index out of range"
  end.

(** ** The key-value store (package ongdb) *)

(** The interfaces [ongdb.KeyValueReader], [ongdb.KeyValueWriter] and
    [ongdb.Iteratee], as the accessors call them. The store is a shared
    mutable object in Go; here [Put] and [Delete] return the store after
    the call next to the error ([None] is Go's [nil] error). An iterator is
    the list of the entries it yields. *)
Class KeyValueStore (DB : Type) : Type := {
  Get : DB → bytes → bytes * option error;
  Put : DB → bytes → bytes → DB * option error;
  Delete : DB → bytes → DB * option error;
  NewIterator : DB → bytes → bytes → list (bytes * bytes)
}.

(** Modelled from the spec: the store is an external collaborator
    "exposing get(key) -> bytes|absent, put(key, value) -> ok|fail,
    delete(key) -> ok|fail, and a range iterator over a key prefix".
    [contents] is the finite map a store state stands for; an absent key
    reads as no data, a successful [Put] or [Delete] updates the map at the
    one key, and the iterator for a prefix and a start yields the entries
    whose key carries the prefix and is not below prefix + start. Nothing
    is said about the store after a failed write. *)
Class StoreContract (DB : Type) `{KeyValueStore DB} : Type := {
  contents : DB → gmap bytes bytes;
  Get_contents : ∀ db k, (Get db k).1 = default [] (contents db !! k);
  Put_contents : ∀ db k v db',
    Put db k v = (db', None) → contents db' = <[k:=v]> (contents db);
  Delete_contents : ∀ db k db',
    Delete db k = (db', None) → contents db' = delete k (contents db);
  NewIterator_contents : ∀ db prefix start k v,
    (k, v) ∈ NewIterator db prefix start ↔
    contents db !! k = Some v ∧ prefix `prefix_of` k
    ∧ bytes_le (prefix ++ start) k = true
}.

(** ** The key schema *)

(** The keys of the seven records. The five fixed keys and the two leaf
    prefixes are constants of the package's schema (schema.go); the
    accessors use them by name only, so they are parameters here. *)
Class Schema : Type := {
  snapshotRootKey : bytes;
  snapshotJournalKey : bytes;
  snapshotGeneratorKey : bytes;
  snapshotRecoveryKey : bytes;
  snapshotSyncStatusKey : bytes;
  SnapshotAccountPrefix : bytes;
  SnapshotStoragePrefix : bytes
}.

Section Keys.
Context `{Schema}.

(** Modelled from the spec: the key constructors are declared with the
    schema (schema.go). An account leaf has the key
    "fixed prefix + account-hash". *)
Definition accountSnapshotKey (hash : Hash) : bytes :=
  SnapshotAccountPrefix ++ hash_bytes hash.

(** Modelled from the spec: a storage leaf has the key
    "fixed prefix + account-hash + storage-hash". *)
Definition storageSnapshotKey (accountHash storageHash : Hash) : bytes :=
  SnapshotStoragePrefix ++ hash_bytes accountHash ++ hash_bytes storageHash.

(** Modelled from the spec: the prefix shared by the storage leaves of
    one account, "fixed prefix + account-hash". *)
Definition storageSnapshotsKey (accountHash : Hash) : bytes :=
  SnapshotStoragePrefix ++ hash_bytes accountHash.
End Keys.

(** ** The accessors *)

Section Accessors.
Context `{Schema} {DB : Type} `{KeyValueStore DB}.

(** The shape shared by the write and delete accessors:
    [if err := op; err != nil { log.Crit(msg, "err", err) }]. *)
Definition crit_on_error (msg : string) (r : DB * option error) : outcome DB :=
  match r with
  | (_, Some err) => Crit msg err
  | (db', None) => Returned db'
  end.

Definition ReadSnapshotRoot (db : DB) : Hash :=
  let '(data, _) := Get db snapshotRootKey in
  if decide (length data ≠ HashLength) then zero_hash
  else BytesToHash data.

Definition WriteSnapshotRoot (db : DB) (root : Hash) : outcome DB :=
  crit_on_error "Failed to store snapshot root"
    (Put db snapshotRootKey (hash_bytes root)).

Definition DeleteSnapshotRoot (db : DB) : outcome DB :=
  crit_on_error "Failed to remove snapshot root"
    (Delete db snapshotRootKey).

Definition ReadAccountSnapshot (db : DB) (hash : Hash) : bytes :=
  let '(data, _) := Get db (accountSnapshotKey hash) in data.

Definition WriteAccountSnapshot (db : DB) (hash : Hash) (entry : bytes)
  : outcome DB :=
  crit_on_error "Failed to store account snapshot"
    (Put db (accountSnapshotKey hash) entry).

Definition DeleteAccountSnapshot (db : DB) (hash : Hash) : outcome DB :=
  crit_on_error "Failed to delete account snapshot"
    (Delete db (accountSnapshotKey hash)).

Definition ReadStorageSnapshot (db : DB) (accountHash storageHash : Hash)
  : bytes :=
  let '(data, _) := Get db (storageSnapshotKey accountHash storageHash) in
  data.

Definition WriteStorageSnapshot (db : DB) (accountHash storageHash : Hash)
    (entry : bytes) : outcome DB :=
  crit_on_error "Failed to store storage snapshot"
    (Put db (storageSnapshotKey accountHash storageHash) entry).

Definition DeleteStorageSnapshot (db : DB) (accountHash storageHash : Hash)
  : outcome DB :=
  crit_on_error "Failed to delete storage snapshot"
    (Delete db (storageSnapshotKey accountHash storageHash)).

Definition IterateStorageSnapshots (db : DB) (accountHash : Hash)
  : list (bytes * bytes) :=
  NewIterator db (storageSnapshotsKey accountHash) [].

Definition ReadSnapshotJournal (db : DB) : bytes :=
  let '(data, _) := Get db snapshotJournalKey in data.

Definition WriteSnapshotJournal (db : DB) (journal : bytes) : outcome DB :=
  crit_on_error "Failed to store snapshot journal"
    (Put db snapshotJournalKey journal).

Definition DeleteSnapshotJournal (db : DB) : outcome DB :=
  crit_on_error "Failed to remove snapshot journal"
    (Delete db snapshotJournalKey).

Definition ReadSnapshotGenerator (db : DB) : bytes :=
  let '(data, _) := Get db snapshotGeneratorKey in data.

Definition WriteSnapshotGenerator (db : DB) (generator : bytes)
  : outcome DB :=
  crit_on_error "Failed to store snapshot generator"
    (Put db snapshotGeneratorKey generator).

Definition DeleteSnapshotGenerator (db : DB) : outcome DB :=
  crit_on_error "Failed to remove snapshot generator"
    (Delete db snapshotGeneratorKey).

(** The result is Go's [*uint64]: [None] is the nil pointer. *)
Definition ReadSnapshotRecoveryNumber (db : DB) : outcome (option Z) :=
  let '(data, _) := Get db snapshotRecoveryKey in
  if decide (length data = 0%nat) then Returned None
  else if decide (length data ≠ 8%nat) then Returned None
  else match Uint64 data with
       | Returned number => Returned (Some number)
       | Crit msg err => Crit msg err
       | Panic msg => Panic msg
       end.

Definition WriteSnapshotRecoveryNumber (db : DB) (number : Z) : outcome DB :=
  let buf := PutUint64 number in
  crit_on_error "Failed to store snapshot recovery number"
    (Put db snapshotRecoveryKey buf).

Definition DeleteSnapshotRecoveryNumber (db : DB) : outcome DB :=
  crit_on_error "Failed to remove snapshot recovery number"
    (Delete db snapshotRecoveryKey).

Definition ReadSnapshotSyncStatus (db : DB) : bytes :=
  let '(data, _) := Get db snapshotSyncStatusKey in data.

Definition WriteSnapshotSyncStatus (db : DB) (status : bytes) : outcome DB :=
  crit_on_error "Failed to store snapshot sync status"
    (Put db snapshotSyncStatusKey status).

Definition DeleteSnapshotSyncStatus (db : DB) : outcome DB :=
  crit_on_error "Failed to remove snapshot sync status"
    (Delete db snapshotSyncStatusKey).
End Accessors.

(** ** The records, and the accessors by record *)

(** The seven record kinds; a leaf record is named with its hashes. *)
Inductive record : Type :=
  | SnapshotRoot
  | AccountLeaf (hash : Hash)
  | StorageLeaf (accountHash storageHash : Hash)
  | Journal
  | Generator
  | RecoveryNumber
  | SyncStatus.

(** A call of one of the seven write or seven delete accessors. *)
Inductive mutation : Type :=
  | WriteRoot (root : Hash)
  | WriteAccount (hash : Hash) (entry : bytes)
  | WriteStorage (accountHash storageHash : Hash) (entry : bytes)
  | WriteJournal (journal : bytes)
  | WriteGenerator (generator : bytes)
  | WriteRecovery (number : Z)
  | WriteSyncStatus (status : bytes)
  | DeleteRecord (r : record).

(** What a read accessor hands back. *)
Inductive observation : Type :=
  | RootRead (root : Hash)
  | BlobRead (data : bytes)
  | NumberRead (number : outcome (option Z)).

Section ByRecord.
Context `{Schema} {DB : Type} `{KeyValueStore DB}.

(** The key of a record (section 6, "Key shape"). *)
Definition record_key (r : record) : bytes :=
  match r with
  | SnapshotRoot => snapshotRootKey
  | AccountLeaf hash => accountSnapshotKey hash
  | StorageLeaf accountHash storageHash =>
      storageSnapshotKey accountHash storageHash
  | Journal => snapshotJournalKey
  | Generator => snapshotGeneratorKey
  | RecoveryNumber => snapshotRecoveryKey
  | SyncStatus => snapshotSyncStatusKey
  end.

Definition mutated (m : mutation) : record :=
  match m with
  | WriteRoot _ => SnapshotRoot
  | WriteAccount hash _ => AccountLeaf hash
  | WriteStorage accountHash storageHash _ =>
      StorageLeaf accountHash storageHash
  | WriteJournal _ => Journal
  | WriteGenerator _ => Generator
  | WriteRecovery _ => RecoveryNumber
  | WriteSyncStatus _ => SyncStatus
  | DeleteRecord r => r
  end.

(** The stored value a write asks for (section 6, "Value"); a delete
    asks for none. *)
Definition payload (m : mutation) : option bytes :=
  match m with
  | WriteRoot root => Some (hash_bytes root)
  | WriteAccount _ entry => Some entry
  | WriteStorage _ _ entry => Some entry
  | WriteJournal journal => Some journal
  | WriteGenerator generator => Some generator
  | WriteRecovery number => Some (PutUint64 number)
  | WriteSyncStatus status => Some status
  | DeleteRecord _ => None
  end.

(** The call of the store a mutation stands on. *)
Definition store_call (db : DB) (m : mutation) : DB * option error :=
  match payload m with
  | Some value => Put db (record_key (mutated m)) value
  | None => Delete db (record_key (mutated m))
  end.

(** Running the accessor itself. *)
Definition run (db : DB) (m : mutation) : outcome DB :=
  match m with
  | WriteRoot root => WriteSnapshotRoot db root
  | WriteAccount hash entry => WriteAccountSnapshot db hash entry
  | WriteStorage accountHash storageHash entry =>
      WriteStorageSnapshot db accountHash storageHash entry
  | WriteJournal journal => WriteSnapshotJournal db journal
  | WriteGenerator generator => WriteSnapshotGenerator db generator
  | WriteRecovery number => WriteSnapshotRecoveryNumber db number
  | WriteSyncStatus status => WriteSnapshotSyncStatus db status
  | DeleteRecord SnapshotRoot => DeleteSnapshotRoot db
  | DeleteRecord (AccountLeaf hash) => DeleteAccountSnapshot db hash
  | DeleteRecord (StorageLeaf accountHash storageHash) =>
      DeleteStorageSnapshot db accountHash storageHash
  | DeleteRecord Journal => DeleteSnapshotJournal db
  | DeleteRecord Generator => DeleteSnapshotGenerator db
  | DeleteRecord RecoveryNumber => DeleteSnapshotRecoveryNumber db
  | DeleteRecord SyncStatus => DeleteSnapshotSyncStatus db
  end.

(** Reading a record with its accessor. *)
Definition read (db : DB) (r : record) : observation :=
  match r with
  | SnapshotRoot => RootRead (ReadSnapshotRoot db)
  | AccountLeaf hash => BlobRead (ReadAccountSnapshot db hash)
  | StorageLeaf accountHash storageHash =>
      BlobRead (ReadStorageSnapshot db accountHash storageHash)
  | Journal => BlobRead (ReadSnapshotJournal db)
  | Generator => BlobRead (ReadSnapshotGenerator db)
  | RecoveryNumber => NumberRead (ReadSnapshotRecoveryNumber db)
  | SyncStatus => BlobRead (ReadSnapshotSyncStatus db)
  end.
End ByRecord.

(** ** Schemas that keep the records apart *)

Section SchemaCheck.
Context `{Schema}.

Definition fixed_keys : list bytes :=
  [ snapshotRootKey; snapshotJournalKey; snapshotGeneratorKey;
    snapshotRecoveryKey; snapshotSyncStatusKey ].

(** [k] has the shape of a leaf key: [prefix] and then [n] hashes. *)
Definition leaf_shaped (prefix : bytes) (n : nat) (k : bytes) : bool :=
  bool_decide (prefix `prefix_of` k)
  && bool_decide (length k = (length prefix + n * HashLength)%nat).

(** The check on the constants: the fixed keys differ from each other,
    none of them has the shape of a leaf key, and the account prefix is
    not the storage prefix followed by 32 more bytes. *)
Definition schema_disjoint : bool :=
  bool_decide (NoDup fixed_keys)
  && forallb (λ k, negb (leaf_shaped SnapshotAccountPrefix 1 k)
                   && negb (leaf_shaped SnapshotStoragePrefix 2 k))
       fixed_keys
  && negb (leaf_shaped SnapshotStoragePrefix 1 SnapshotAccountPrefix).

(** The records with a fixed key, in the order of [fixed_keys]. *)
Definition fixed_records : list record :=
  [ SnapshotRoot; Journal; Generator; RecoveryNumber; SyncStatus ].

Definition is_leaf (r : record) : bool :=
  match r with
  | AccountLeaf _ | StorageLeaf _ _ => true
  | _ => false
  end.

(** Two leaf records of one kind: two account leaves or two storage
    leaves. *)
Definition same_leaf_kind (r r' : record) : bool :=
  match r, r' with
  | AccountLeaf _, AccountLeaf _ => true
  | StorageLeaf _ _, StorageLeaf _ _ => true
  | _, _ => false
  end.

(** [k] carries [prefix] and at least one hash after it. *)
Definition in_prefix_range (prefix k : bytes) : bool :=
  bool_decide (prefix `prefix_of` k)
  && bool_decide (length prefix + HashLength ≤ length k)%nat.

(** The check for the storage iterator: no fixed key lies in the range
    of the storage prefix, and the account prefix does not start with
    the storage prefix. *)
Definition storage_range_exclusive : bool :=
  forallb (λ k, negb (in_prefix_range SnapshotStoragePrefix k)) fixed_keys
  && negb (bool_decide (SnapshotStoragePrefix `prefix_of` SnapshotAccountPrefix)).
End SchemaCheck.

(** ** An in-memory store and a schema to evaluate on *)

(** A store held in memory: a finite map, and a switch which, when set,
    makes every write fail with the given error and change nothing. *)
Record memdb : Type := MemDB {
  mem_data : gmap bytes bytes;
  mem_fault : option error
}.

Definition entry_le (x y : bytes * bytes) : Prop := bytes_le x.1 y.1 = true.

#[global] Instance entry_le_dec : RelDecision entry_le.
Proof. intros x y. unfold entry_le. apply _. Defined.

Definition in_range (prefix start : bytes) (kv : bytes * bytes) : Prop :=
  prefix `prefix_of` kv.1 ∧ bytes_le (prefix ++ start) kv.1 = true.

#[global] Instance in_range_dec prefix start kv :
  Decision (in_range prefix start kv).
Proof. unfold in_range. apply _. Defined.

#[global] Instance memdb_store : KeyValueStore memdb := {|
  Get db k :=
    match mem_data db !! k with
    | Some v => (v, None)
    | None => ([], Some "not found"%string)
    end;
  Put db k v :=
    match mem_fault db with
    | Some err => (db, Some err)
    | None => (MemDB (<[k:=v]> (mem_data db)) None, None)
    end;
  Delete db k :=
    match mem_fault db with
    | Some err => (db, Some err)
    | None => (MemDB (delete k (mem_data db)) None, None)
    end;
  NewIterator db prefix start :=
    merge_sort entry_le
      (filter (in_range prefix start) (map_to_list (mem_data db)))
|}.

#[global] Program Instance memdb_contract : StoreContract memdb := {|
  contents := mem_data
|}.
Next Obligation.
  intros db k. simpl. by destruct (mem_data db !! k).
Qed.
Next Obligation.
  intros db k v db'. simpl. destruct (mem_fault db); [done|].
  by intros [= <-].
Qed.
Next Obligation.
  intros db k db'. simpl. destruct (mem_fault db); [done|].
  by intros [= <-].
Qed.
Next Obligation.
  intros db prefix start k v. simpl.
  rewrite merge_sort_Permutation, list_elem_of_filter, elem_of_map_to_list.
  unfold in_range. simpl. tauto.
Qed.

Definition mem_empty : memdb := MemDB ∅ None.

(** A schema with distinct fixed keys and one-byte leaf prefixes. *)
Definition sample_schema : Schema := {|
  snapshotRootKey := bytes_of_string "SnapshotRoot";
  snapshotJournalKey := bytes_of_string "SnapshotJournal";
  snapshotGeneratorKey := bytes_of_string "SnapshotGenerator";
  snapshotRecoveryKey := bytes_of_string "SnapshotRecovery";
  snapshotSyncStatusKey := bytes_of_string "SnapshotSyncStatus";
  SnapshotAccountPrefix := bytes_of_string "a";
  SnapshotStoragePrefix := bytes_of_string "o"
|}.

(** The hash whose 32 bytes are all [b]. *)
Definition const_hash (b : byte) : Hash := mkHash (replicate HashLength b) eq_refl.

Definition h1 : Hash := const_hash x11.
Definition h2 : Hash := const_hash x22.

(** A store on which every write fails. *)
Definition mem_faulty : memdb := MemDB ∅ (Some "disk full"%string).

(** The store holding the one entry [k], [v]. *)
Definition mem_with (k v : bytes) : memdb := MemDB (<[k:=v]> ∅) None.

(** A schema in which the journal and the generator state share one fixed
    key; everything else is as in [sample_schema]. *)
Definition shared_key_schema : Schema := {|
  snapshotRootKey := bytes_of_string "SnapshotRoot";
  snapshotJournalKey := bytes_of_string "SnapshotBlob";
  snapshotGeneratorKey := bytes_of_string "SnapshotBlob";
  snapshotRecoveryKey := bytes_of_string "SnapshotRecovery";
  snapshotSyncStatusKey := bytes_of_string "SnapshotSyncStatus";
  SnapshotAccountPrefix := bytes_of_string "a";
  SnapshotStoragePrefix := bytes_of_string "o"
|}.

(** A schema in which the snapshot-root key is the storage prefix followed
    by the 32 bytes of [h1]; everything else is as in [sample_schema]. *)
Definition root_in_storage_schema : Schema := {|
  snapshotRootKey := bytes_of_string "o" ++ hash_bytes h1;
  snapshotJournalKey := bytes_of_string "SnapshotJournal";
  snapshotGeneratorKey := bytes_of_string "SnapshotGenerator";
  snapshotRecoveryKey := bytes_of_string "SnapshotRecovery";
  snapshotSyncStatusKey := bytes_of_string "SnapshotSyncStatus";
  SnapshotAccountPrefix := bytes_of_string "a";
  SnapshotStoragePrefix := bytes_of_string "o"
|}.

(** * Properties *)

(** ** Bytes, hashes and the big-endian encoding *)

Lemma hash_eq (a b : Hash) : hash_bytes a = hash_bytes b → a = b.
Proof.
  destruct a as [xs Hx], b as [ys Hy]. simpl. intros ->.
  f_equal. apply proof_irrel.
Qed.

Lemma Z_of_byte_range (b : byte) : 0 ≤ Z_of_byte b < 256.
Proof.
  unfold Z_of_byte. pose proof (Byte.to_N_bounded b). lia.
Qed.

Lemma Z_of_byte_of_Z (v : Z) : Z_of_byte (byte_of_Z v) = v mod 256.
Proof.
  unfold Z_of_byte, byte_of_Z.
  assert (0 ≤ v mod 256 < 256) as Hr by (apply Z.mod_pos_bound; lia).
  destruct (Byte.of_N (Z.to_N (v mod 256))) as [b|] eqn:E.
  - apply Byte.to_of_N in E. simpl. rewrite E. lia.
  - apply Byte.of_N_None_iff in E. lia.
Qed.

Lemma byte_of_Z_of_byte (b : byte) : byte_of_Z (Z_of_byte b) = b.
Proof.
  unfold byte_of_Z. pose proof (Z_of_byte_range b) as Hr.
  rewrite Z.mod_small by lia. unfold Z_of_byte.
  by rewrite N2Z.id, Byte.of_to_N.
Qed.

Lemma BytesToHash_hash_bytes (h : Hash) : BytesToHash (hash_bytes h) = h.
Proof.
  apply hash_eq. simpl. rewrite (hash_len h).
  by rewrite Nat.sub_diag.
Qed.

Lemma BytesToHash_exact (b : bytes) :
  length b = HashLength → hash_bytes (BytesToHash b) = b.
Proof. intros E. simpl. rewrite E. by rewrite Nat.sub_diag. Qed.

Lemma PutUint64_length (v : Z) : length (PutUint64 v) = 8%nat.
Proof. reflexivity. Qed.

Lemma testbit_uint64_high (v i : Z) :
  0 ≤ v ≤ uint64_max → 64 ≤ i → Z.testbit v i = false.
Proof.
  unfold uint64_max. intros Hv Hi.
  rewrite <- (Z.mod_small v (2 ^ 64)) by lia.
  apply Z.mod_pow2_bits_high. lia.
Qed.

(** One bit of a byte taken out of [v]: inside the byte it is the bit of
    [v], outside it is clear. *)
Ltac byte_bit :=
  match goal with
  | |- context [Z.testbit (?a mod 2 ^ 8) ?j] =>
      first [ rewrite (Z.testbit_neg_r (a mod 2 ^ 8) j) by lia
            | rewrite (Z.mod_pow2_bits_high a 8 j) by lia
            | rewrite (Z.mod_pow2_bits_low a 8 j) by lia ]
  end.

Lemma Uint64_PutUint64 (v : Z) :
  0 ≤ v ≤ uint64_max → Uint64 (PutUint64 v) = Returned v.
Proof.
  intros Hv. unfold Uint64, PutUint64. f_equal.
  rewrite !Z_of_byte_of_Z.
  apply Z.bits_inj'. intros i Hi.
  rewrite !Z.lor_spec.
  rewrite !Z.shiftl_spec by lia.
  change 256 with (2 ^ 8).
  assert (i < 8 ∨ 8 ≤ i < 16 ∨ 16 ≤ i < 24 ∨ 24 ≤ i < 32 ∨ 32 ≤ i < 40
          ∨ 40 ≤ i < 48 ∨ 48 ≤ i < 56 ∨ 56 ≤ i < 64 ∨ 64 ≤ i) as Hcase by lia.
  destruct Hcase as [?|[?|[?|[?|[?|[?|[?|[?|?]]]]]]]];
    repeat byte_bit;
    rewrite ?Z.shiftr_spec by lia;
    rewrite ?orb_false_r; simpl;
    first [ symmetry; by apply testbit_uint64_high
          | f_equal; lia ].
Qed.

Lemma be_value_PutUint64 (v : Z) :
  0 ≤ v ≤ uint64_max → be_value (PutUint64 v) = v.
Proof.
  unfold uint64_max. intros Hv. unfold be_value, PutUint64. simpl.
  rewrite !Z_of_byte_of_Z, !Z.shiftr_div_pow2 by lia.
  change (2 ^ 8) with 256.
  change (2 ^ 16) with (256 * 256).
  change (2 ^ 24) with (256 * 256 * 256).
  change (2 ^ 32) with (256 * 256 * 256 * 256).
  change (2 ^ 40) with (256 * 256 * 256 * 256 * 256).
  change (2 ^ 48) with (256 * 256 * 256 * 256 * 256 * 256).
  change (2 ^ 56) with (256 * 256 * 256 * 256 * 256 * 256 * 256).
  rewrite <- !Z.div_div by lia.
  change (2 ^ 64 - 1) with 18446744073709551615 in Hv.
  Z.div_mod_to_equations. lia.
Qed.

(** ** Lexicographic order and prefixes *)

Lemma bytes_le_app (p k : bytes) : bytes_le p (p ++ k) = true.
Proof.
  induction p as [|x p IH]; simpl; [done|].
  by rewrite decide_True.
Qed.

Lemma bytes_le_prefix (p k : bytes) : p `prefix_of` k → bytes_le p k = true.
Proof. intros [rest ->]. apply bytes_le_app. Qed.

(** ** Keys *)

Section KeyFacts.
Context `{Schema}.

Lemma accountSnapshotKey_inj (h h' : Hash) :
  accountSnapshotKey h = accountSnapshotKey h' → h = h'.
Proof.
  unfold accountSnapshotKey. intros E.
  apply hash_eq. by apply app_inv_head in E.
Qed.

Lemma storageSnapshotKey_inj (a s a' s' : Hash) :
  storageSnapshotKey a s = storageSnapshotKey a' s' → a = a' ∧ s = s'.
Proof.
  unfold storageSnapshotKey. intros E.
  apply app_inv_head in E.
  apply app_inj_1 in E as [Ea Es].
  - split; by apply hash_eq.
  - by rewrite !hash_len.
Qed.

Lemma storageSnapshotKey_prefix (a s : Hash) :
  storageSnapshotsKey a `prefix_of` storageSnapshotKey a s.
Proof.
  unfold storageSnapshotsKey, storageSnapshotKey.
  exists (hash_bytes s). by rewrite <- app_assoc.
Qed.

Lemma storageSnapshotsKey_prefix_inv (a a' s : Hash) :
  storageSnapshotsKey a `prefix_of` storageSnapshotKey a' s → a = a'.
Proof.
  unfold storageSnapshotsKey, storageSnapshotKey.
  intros [rest E]. rewrite <- app_assoc in E.
  apply app_inv_head in E.
  apply app_inj_1 in E as [Ea _].
  - symmetry. by apply hash_eq.
  - by rewrite !hash_len.
Qed.
End KeyFacts.

(** ** The store behind the accessors *)

Section StoreFacts.
Context {DB : Type} `{StoreContract DB}.

Lemma Get_absent (db : DB) (k : bytes) :
  contents db !! k = None → (Get db k).1 = [].
Proof. intros E. by rewrite Get_contents, E. Qed.

Lemma Get_present (db : DB) (k v : bytes) :
  contents db !! k = Some v → (Get db k).1 = v.
Proof. intros E. by rewrite Get_contents, E. Qed.

Lemma Get_Put (db db' : DB) (k v : bytes) :
  Put db k v = (db', None) → (Get db' k).1 = v.
Proof.
  intros E. apply Get_present.
  rewrite (Put_contents _ _ _ _ E). apply lookup_insert_eq.
Qed.

Lemma Get_Put_ne (db db' : DB) (k k' v : bytes) :
  Put db k v = (db', None) → k ≠ k' → (Get db' k').1 = (Get db k').1.
Proof.
  intros E Hne. rewrite !Get_contents, (Put_contents _ _ _ _ E).
  by rewrite lookup_insert_ne.
Qed.

Lemma Get_Delete (db db' : DB) (k : bytes) :
  Delete db k = (db', None) → (Get db' k).1 = [].
Proof.
  intros E. apply Get_absent.
  rewrite (Delete_contents _ _ _ E). apply lookup_delete_eq.
Qed.

Lemma Get_Delete_ne (db db' : DB) (k k' : bytes) :
  Delete db k = (db', None) → k ≠ k' → (Get db' k').1 = (Get db k').1.
Proof.
  intros E Hne. rewrite !Get_contents, (Delete_contents _ _ _ E).
  by rewrite lookup_delete_ne.
Qed.

Lemma crit_on_error_Returned (msg : string) (r : DB * option error) (db' : DB) :
  crit_on_error msg r = Returned db' ↔ r = (db', None).
Proof.
  destruct r as [d [e|]]; simpl; split; try done.
  - by intros [= ->].
  - by intros [= ->].
Qed.

Lemma crit_on_error_Crit (msg msg' : string) (r : DB * option error) (err : error) :
  crit_on_error msg r = Crit msg' err ↔ msg' = msg ∧ r.2 = Some err.
Proof.
  destruct r as [d [e|]]; simpl; split; try done.
  - by intros [= -> ->].
  - by intros [-> [= ->]].
  - by intros [_ ?].
Qed.

Lemma crit_on_error_no_Panic (msg msg' : string) (r : DB * option error) :
  crit_on_error msg r ≠ Panic msg'.
Proof. by destruct r as [d [e|]]. Qed.
End StoreFacts.

Section AccessorFacts.
Context `{Schema} {DB : Type} `{StoreContract DB}.

(** Every write and delete accessor is its call of the store under
    [crit_on_error], with some message. *)
Lemma run_store_call (db : DB) (m : mutation) :
  ∃ msg, run db m = crit_on_error msg (store_call db m).
Proof.
  destruct m as [ | | | | | | |[]]; eexists; reflexivity.
Qed.

(** A read accessor looks at the store through one [Get], at the key of
    its record. *)
Lemma read_Get (db db' : DB) (r : record) :
  (Get db (record_key r)).1 = (Get db' (record_key r)).1 →
  read db r = read db' r.
Proof.
  destruct r; simpl;
    unfold ReadSnapshotRoot, ReadAccountSnapshot, ReadStorageSnapshot,
      ReadSnapshotJournal, ReadSnapshotGenerator,
      ReadSnapshotRecoveryNumber, ReadSnapshotSyncStatus;
    intros E;
    repeat match goal with
    | |- context [Get ?d ?k] => destruct (Get d k) as [? ?]
    end; simpl in E; by subst.
Qed.

Lemma ReadSnapshotRoot_stored (db : DB) (root : Hash) :
  contents db !! snapshotRootKey = Some (hash_bytes root) →
  ReadSnapshotRoot db = root.
Proof.
  intros E. unfold ReadSnapshotRoot. pose proof (Get_present _ _ _ E) as G.
  destruct (Get db snapshotRootKey) as [data e]. simpl in G. subst data.
  rewrite decide_False by (by rewrite hash_len; intros []).
  apply BytesToHash_hash_bytes.
Qed.

Lemma store_call_contents (db db' : DB) (m : mutation) :
  store_call db m = (db', None) →
  contents db' !! record_key (mutated m) = payload m.
Proof.
  unfold store_call. destruct (payload m) as [value|]; intros E.
  - rewrite (Put_contents _ _ _ _ E). apply lookup_insert_eq.
  - rewrite (Delete_contents _ _ _ E). apply lookup_delete_eq.
Qed.

Lemma store_call_frame (db db' : DB) (m : mutation) (k : bytes) :
  store_call db m = (db', None) → record_key (mutated m) ≠ k →
  (Get db' k).1 = (Get db k).1.
Proof.
  unfold store_call. destruct (payload m) as [value|]; intros E Hne.
  - by eapply Get_Put_ne.
  - by eapply Get_Delete_ne.
Qed.
End AccessorFacts.

(** ** The accessors, record by record *)

Section AccessorProperties.
Context `{Schema} {DB : Type} `{StoreContract DB}.

(** C1. Each of the seven write and seven delete accessors ends in
    [log.Crit] exactly when its [Put] or [Delete] on the store returns an
    error, and then with that error; it returns exactly when the store call
    succeeds, leaving the store that call produced, in which the record
    holds the written value (or is gone after a delete); it never ends in
    any other way, so no failed write goes unnoticed. *)
Theorem write_delete_crit_iff_store_error (db : DB) (m : mutation) :
  (∀ err, (∃ msg, run db m = Crit msg err) ↔ (store_call db m).2 = Some err)
  ∧ (∀ db', run db m = Returned db' ↔ store_call db m = (db', None))
  ∧ (∀ db', run db m = Returned db' →
            contents db' !! record_key (mutated m) = payload m)
  ∧ (∀ msg, run db m ≠ Panic msg).
Proof.
  destruct (run_store_call db m) as [msg0 Hrun]. rewrite Hrun.
  split; [|split; [|split]].
  - intros err. split.
    + intros [msg E]. by apply crit_on_error_Crit in E as [_ ?].
    + intros E. exists msg0. by apply crit_on_error_Crit.
  - intros db'. apply crit_on_error_Returned.
  - intros db' E%crit_on_error_Returned. by apply (store_call_contents db).
  - intros msg. apply crit_on_error_no_Panic.
Qed.

(** C2. After [WriteSnapshotRoot db root] has returned, the store holds
    the 32 bytes of [root] under the snapshot-root key and
    [ReadSnapshotRoot] returns [root]. *)
Theorem snapshot_root_roundtrip (db db' : DB) (root : Hash) :
  WriteSnapshotRoot db root = Returned db' →
  contents db' !! snapshotRootKey = Some (hash_bytes root)
  ∧ ReadSnapshotRoot db' = root.
Proof.
  unfold WriteSnapshotRoot. intros E%crit_on_error_Returned.
  assert (contents db' !! snapshotRootKey = Some (hash_bytes root)) as S.
  { rewrite (Put_contents _ _ _ _ E). apply lookup_insert_eq. }
  split; [done|]. by apply ReadSnapshotRoot_stored.
Qed.

(** C3. For a block number [n] in the range of uint64, after
    [WriteSnapshotRecoveryNumber db n] has returned the store holds under
    the recovery key the eight bytes that are [n] in big-endian order, and
    [ReadSnapshotRecoveryNumber] returns a non-nil pointer to [n]. *)
Theorem recovery_number_roundtrip (db db' : DB) (n : Z) :
  0 ≤ n ≤ uint64_max →
  WriteSnapshotRecoveryNumber db n = Returned db' →
  (∃ buf, contents db' !! snapshotRecoveryKey = Some buf
          ∧ length buf = 8%nat ∧ be_value buf = n)
  ∧ ReadSnapshotRecoveryNumber db' = Returned (Some n).
Proof.
  intros Hn. unfold WriteSnapshotRecoveryNumber.
  intros E%crit_on_error_Returned. split.
  - exists (PutUint64 n). split; [|split].
    + rewrite (Put_contents _ _ _ _ E). apply lookup_insert_eq.
    + apply PutUint64_length.
    + by apply be_value_PutUint64.
  - unfold ReadSnapshotRecoveryNumber. pose proof (Get_Put _ _ _ _ E) as G.
    destruct (Get db' snapshotRecoveryKey) as [data e]. simpl in G.
    subst data. rewrite PutUint64_length.
    rewrite decide_False by done. rewrite decide_False by (by intros []).
    by rewrite Uint64_PutUint64.
Qed.


(** C5. After [WriteStorageSnapshot db a s e] has returned,
    [ReadStorageSnapshot] at [(a, s)] returns [e]; and the key of a storage
    leaf determines the pair: two pairs of hashes with the same key are the
    same pair. *)
Theorem storage_snapshot_roundtrip (db db' : DB) (a s : Hash) (e : bytes) :
  WriteStorageSnapshot db a s e = Returned db' →
  ReadStorageSnapshot db' a s = e
  ∧ ∀ a' s', storageSnapshotKey a' s' = storageSnapshotKey a s →
             a' = a ∧ s' = s.
Proof.
  unfold WriteStorageSnapshot, ReadStorageSnapshot.
  intros E%crit_on_error_Returned. split.
  - pose proof (Get_Put _ _ _ _ E) as G.
    by destruct (Get db' (storageSnapshotKey a s)).
  - intros a' s'. apply storageSnapshotKey_inj.
Qed.

(** C7. After [DeleteSnapshotRecoveryNumber] has returned, the recovery
    key is absent from the store and [ReadSnapshotRecoveryNumber] returns
    nil, whatever the store held before. *)
Theorem recovery_number_deleted (db db' : DB) :
  DeleteSnapshotRecoveryNumber db = Returned db' →
  contents db' !! snapshotRecoveryKey = None
  ∧ ReadSnapshotRecoveryNumber db' = Returned None.
Proof.
  unfold DeleteSnapshotRecoveryNumber. intros D%crit_on_error_Returned.
  split.
  - rewrite (Delete_contents _ _ _ D). apply lookup_delete_eq.
  - unfold ReadSnapshotRecoveryNumber. pose proof (Get_Delete _ _ _ D) as G.
    destruct (Get db' snapshotRecoveryKey) as [data e]. simpl in G.
    by subst data.
Qed.

(** C9. [ReadSnapshotRoot] returns the zero hash when the store holds no
    snapshot-root record and when the stored blob is not 32 bytes long;
    it is a total function, and a store without the record reads the same
    as one in which the zero hash has been written. *)
Theorem snapshot_root_zero_when_absent_or_malformed (db : DB) :
  (contents db !! snapshotRootKey = None → ReadSnapshotRoot db = zero_hash)
  ∧ (∀ blob, contents db !! snapshotRootKey = Some blob →
             length blob ≠ HashLength → ReadSnapshotRoot db = zero_hash)
  ∧ (∀ db0 db1, contents db !! snapshotRootKey = None →
                WriteSnapshotRoot db0 zero_hash = Returned db1 →
                ReadSnapshotRoot db1 = ReadSnapshotRoot db).
Proof.
  assert (contents db !! snapshotRootKey = None →
          ReadSnapshotRoot db = zero_hash) as Habsent.
  { intros E. unfold ReadSnapshotRoot. pose proof (Get_absent _ _ E) as G.
    destruct (Get db snapshotRootKey) as [data e]. simpl in G. by subst data. }
  split; [done|]. split.
  - intros blob E Hlen. unfold ReadSnapshotRoot.
    pose proof (Get_present _ _ _ E) as G.
    destruct (Get db snapshotRootKey) as [data e]. simpl in G. subst data.
    by rewrite decide_True.
  - intros db0 db1 E W. rewrite (Habsent E).
    unfold WriteSnapshotRoot in W. apply crit_on_error_Returned in W.
    apply ReadSnapshotRoot_stored.
    rewrite (Put_contents _ _ _ _ W). apply lookup_insert_eq.
Qed.

(** C10. [ReadSnapshotRecoveryNumber] returns for every store: it never
    panics or aborts. It returns nil when the recovery key is absent and
    when the stored blob is not exactly eight bytes long. *)
Theorem recovery_number_read_total (db : DB) :
  (∃ number, ReadSnapshotRecoveryNumber db = Returned number)
  ∧ (contents db !! snapshotRecoveryKey = None →
     ReadSnapshotRecoveryNumber db = Returned None)
  ∧ (∀ blob, contents db !! snapshotRecoveryKey = Some blob →
             length blob ≠ 8%nat →
             ReadSnapshotRecoveryNumber db = Returned None).
Proof.
  split; [|split].
  - unfold ReadSnapshotRecoveryNumber.
    destruct (Get db snapshotRecoveryKey) as [data e].
    destruct (decide (length data = 0%nat)); [by eexists|].
    destruct (decide (length data ≠ 8%nat)) as [|Hlen]; [by eexists|].
    apply dec_stable in Hlen.
    do 8 (destruct data as [|? data]; [done|]).
    simpl. by eexists.
  - intros E. unfold ReadSnapshotRecoveryNumber.
    pose proof (Get_absent _ _ E) as G.
    destruct (Get db snapshotRecoveryKey) as [data e]. simpl in G.
    by subst data.
  - intros blob E Hlen. unfold ReadSnapshotRecoveryNumber.
    pose proof (Get_present _ _ _ E) as G.
    destruct (Get db snapshotRecoveryKey) as [data e]. simpl in G.
    subst data. destruct (decide (length blob = 0%nat)); [done|].
    by rewrite decide_True.
Qed.
End AccessorProperties.

(** ** Keeping the records apart *)

Section Disjointness.
Context `{Schema}.

(** Of two prefixes of one list, the shorter is a prefix of the longer. *)
Lemma prefix_of_shorter (p q l : bytes) :
  p `prefix_of` l → q `prefix_of` l → (length p ≤ length q)%nat →
  p `prefix_of` q.
Proof.
  intros Hp Hq Hlen.
  destruct (prefix_weak_total _ _ _ Hp Hq) as [|Hqp]; [done|].
  pose proof (prefix_length _ _ Hqp) as Hle.
  assert (q = p) as -> by (apply (prefix_length_eq _ _ Hqp); lia).
  done.
Qed.

Lemma leaf_shaped_account (h : Hash) :
  leaf_shaped SnapshotAccountPrefix 1 (accountSnapshotKey h) = true.
Proof.
  unfold leaf_shaped, accountSnapshotKey.
  rewrite bool_decide_eq_true_2 by apply prefix_app_r, reflexivity.
  rewrite bool_decide_eq_true_2; [done|].
  rewrite length_app, hash_len. lia.
Qed.

Lemma leaf_shaped_storage (a s : Hash) :
  leaf_shaped SnapshotStoragePrefix 2 (storageSnapshotKey a s) = true.
Proof.
  unfold leaf_shaped, storageSnapshotKey.
  rewrite bool_decide_eq_true_2 by apply prefix_app_r, reflexivity.
  rewrite bool_decide_eq_true_2; [done|].
  rewrite !length_app, !hash_len. lia.
Qed.

Lemma leaf_shaped_clash (h a s : Hash) :
  accountSnapshotKey h = storageSnapshotKey a s →
  leaf_shaped SnapshotStoragePrefix 1 SnapshotAccountPrefix = true.
Proof.
  unfold accountSnapshotKey, storageSnapshotKey, leaf_shaped. intros E.
  assert (length SnapshotAccountPrefix
          = length SnapshotStoragePrefix + 1 * HashLength)%nat as Hlen.
  { apply (f_equal length) in E.
    rewrite !length_app, !hash_len in E. lia. }
  rewrite (bool_decide_eq_true_2 _ Hlen), andb_true_r.
  apply bool_decide_eq_true_2.
  apply (prefix_of_shorter _ _ (SnapshotAccountPrefix ++ hash_bytes h)).
  - rewrite E. apply prefix_app_r. reflexivity.
  - apply prefix_app_r. reflexivity.
  - lia.
Qed.

(** A list of [n] hashes' worth of bytes after a prefix splits off its
    first hash. *)
Lemma leaf_shaped_split (prefix k : bytes) (n : nat) :
  leaf_shaped prefix (S n) k = true →
  ∃ (h : Hash) (rest : bytes),
    k = prefix ++ hash_bytes h ++ rest
    ∧ length rest = (n * HashLength)%nat.
Proof.
  unfold leaf_shaped. intros [Hp Hlen]%andb_true_iff.
  apply bool_decide_eq_true_1 in Hp as [tail ->].
  apply bool_decide_eq_true_1 in Hlen. rewrite length_app in Hlen.
  assert (length (take HashLength tail) = HashLength) as Hh.
  { rewrite length_take. lia. }
  exists (mkHash (take HashLength tail) Hh), (drop HashLength tail).
  simpl. rewrite take_drop. split; [done|].
  rewrite length_drop. lia.
Qed.

Lemma fixed_keys_records : fixed_keys = record_key <$> fixed_records.
Proof. reflexivity. Qed.

Lemma fixed_or_leaf (r : record) : r ∈ fixed_records ∨ is_leaf r = true.
Proof.
  unfold fixed_records. rewrite !elem_of_cons.
  destruct r; simpl; auto 10.
Qed.

Lemma fixed_not_leaf (r : record) : r ∈ fixed_records → is_leaf r = false.
Proof.
  unfold fixed_records. rewrite !elem_of_cons, elem_of_nil.
  by intros [->|[->|[->|[->|[->|[]]]]]].
Qed.

Lemma fixed_records_NoDup : NoDup fixed_records.
Proof.
  unfold fixed_records.
  rewrite !NoDup_cons, !not_elem_of_cons, !elem_of_nil.
  repeat split; try done; try tauto. apply NoDup_nil_2.
Qed.

(** What [schema_disjoint] says, clause by clause. *)
Lemma schema_disjoint_unfold :
  schema_disjoint = true ↔
  NoDup fixed_keys
  ∧ (∀ k, k ∈ fixed_keys →
          leaf_shaped SnapshotAccountPrefix 1 k = false
          ∧ leaf_shaped SnapshotStoragePrefix 2 k = false)
  ∧ leaf_shaped SnapshotStoragePrefix 1 SnapshotAccountPrefix = false.
Proof.
  unfold schema_disjoint.
  rewrite !andb_true_iff, bool_decide_eq_true, negb_true_iff.
  rewrite forallb_forall.
  setoid_rewrite andb_true_iff. setoid_rewrite negb_true_iff.
  setoid_rewrite <- list_elem_of_In. tauto.
Qed.

Lemma leaf_key_not_fixed (r r' : record) :
  schema_disjoint = true →
  r ∈ fixed_records → is_leaf r' = true → record_key r ≠ record_key r'.
Proof.
  intros (_ & Hfix & _)%schema_disjoint_unfold Hr Hleaf E.
  assert (record_key r ∈ fixed_keys) as Hin.
  { rewrite fixed_keys_records. by apply list_elem_of_fmap_2. }
  destruct (Hfix _ Hin) as [Ha Hs].
  destruct r' as [|h|a s| | | |]; try done; simpl in E; rewrite E in *.
  - by rewrite leaf_shaped_account in Ha.
  - by rewrite leaf_shaped_storage in Hs.
Qed.

(** Under a schema passing the check, the key determines the record. *)
Lemma record_key_inj (r r' : record) :
  schema_disjoint = true → record_key r = record_key r' → r = r'.
Proof.
  intros Hok E.
  destruct (fixed_or_leaf r) as [Hr|Hr], (fixed_or_leaf r') as [Hr'|Hr'].
  - apply schema_disjoint_unfold in Hok as (Hnd & _ & _).
    rewrite fixed_keys_records in Hnd.
    apply list_elem_of_lookup in Hr as [i Hi], Hr' as [j Hj].
    assert (i = j) as ->.
    { eapply (proj1 (NoDup_alt _) Hnd); rewrite list_lookup_fmap.
      - by rewrite Hi.
      - rewrite Hj. simpl. by rewrite E. }
    congruence.
  - by destruct (leaf_key_not_fixed r r' Hok Hr Hr').
  - by destruct (leaf_key_not_fixed r' r Hok Hr' Hr).
  - destruct r as [|h|a s| | | |], r' as [|h'|a' s'| | | |];
      try done; simpl in E.
    + f_equal. by apply accountSnapshotKey_inj.
    + apply leaf_shaped_clash in E.
      apply schema_disjoint_unfold in Hok as (_ & _ & Hclash). congruence.
    + symmetry in E. apply leaf_shaped_clash in E.
      apply schema_disjoint_unfold in Hok as (_ & _ & Hclash). congruence.
    + by apply storageSnapshotKey_inj in E as [-> ->].
Qed.

(** The check asks for no more than that: a schema under which the key
    determines the record passes it. *)
Lemma schema_disjoint_complete :
  (∀ r r', record_key r = record_key r' → r = r') →
  schema_disjoint = true.
Proof.
  intros Hinj. apply schema_disjoint_unfold. split; [|split].
  - rewrite fixed_keys_records. apply NoDup_fmap_2_strong.
    + intros r r' _ _. apply Hinj.
    + apply fixed_records_NoDup.
  - intros k Hk. rewrite fixed_keys_records in Hk.
    apply list_elem_of_fmap in Hk as (r & -> & Hr).
    split; apply not_true_is_false; intros Hshape;
      apply leaf_shaped_split in Hshape as (h & rest & E & Hlen).
    + destruct rest; [|done]. rewrite app_nil_r in E.
      apply (Hinj r (AccountLeaf h)) in E. subst r.
      by apply fixed_not_leaf in Hr.
    + change (1 * HashLength)%nat with HashLength in Hlen.
      apply (Hinj r (StorageLeaf h (mkHash rest Hlen))) in E.
      subst r. by apply fixed_not_leaf in Hr.
  - apply not_true_is_false. intros Hshape.
    apply leaf_shaped_split in Hshape as (h & rest & E & Hlen).
    destruct rest; [|done]. rewrite app_nil_r in E.
    assert (record_key (AccountLeaf zero_hash)
            = record_key (StorageLeaf h zero_hash)) as Hclash.
    { simpl. unfold accountSnapshotKey, storageSnapshotKey.
      by rewrite E, <- app_assoc. }
    by apply Hinj in Hclash.
Qed.
End Disjointness.

(** ** Writes and other records; the storage iterator *)

Section FrameAndIteration.
Context `{Schema} {DB : Type} `{StoreContract DB}.

(** A write or delete that returned leaves every read at another key as
    it was. *)
Lemma run_frame_key (db db' : DB) (m : mutation) (r : record) :
  run db m = Returned db' → record_key (mutated m) ≠ record_key r →
  read db' r = read db r.
Proof.
  intros Hrun Hne. destruct (run_store_call db m) as [msg E].
  rewrite E in Hrun. apply crit_on_error_Returned in Hrun.
  apply read_Get. by eapply store_call_frame.
Qed.

(** Within the account leaves no condition on the schema is needed. *)
Lemma account_snapshot_frame (db db' : DB) (h h' : Hash) (e : bytes) :
  WriteAccountSnapshot db h e = Returned db' → h ≠ h' →
  ReadAccountSnapshot db' h' = ReadAccountSnapshot db h'.
Proof.
  intros W Hne.
  assert (read db' (AccountLeaf h') = read db (AccountLeaf h')) as R.
  { apply (run_frame_key db db' (WriteAccount h e)); [done|].
    simpl. by intros ?%accountSnapshotKey_inj. }
  by injection R.
Qed.

(** Nor within the storage leaves. *)
Lemma storage_snapshot_frame (db db' : DB) (a s a' s' : Hash) (e : bytes) :
  WriteStorageSnapshot db a s e = Returned db' → (a, s) ≠ (a', s') →
  ReadStorageSnapshot db' a' s' = ReadStorageSnapshot db a' s'.
Proof.
  intros W Hne.
  assert (read db' (StorageLeaf a' s') = read db (StorageLeaf a' s')) as R.
  { apply (run_frame_key db db' (WriteStorage a s e)); [done|].
    simpl. intros [-> ->]%storageSnapshotKey_inj. by apply Hne. }
  by injection R.
Qed.

(** The iterator's range: the entries of the store under the prefix. *)
Lemma iterate_range (db : DB) (a : Hash) (k v : bytes) :
  (k, v) ∈ IterateStorageSnapshots db a ↔
  contents db !! k = Some v ∧ storageSnapshotsKey a `prefix_of` k.
Proof.
  unfold IterateStorageSnapshots. rewrite NewIterator_contents.
  rewrite app_nil_r. split; [tauto|].
  intros [? ?]. by auto using bytes_le_prefix.
Qed.

(** A fixed key in the range would carry the storage prefix and a hash. *)
Lemma in_prefix_range_storage (a : Hash) (k : bytes) :
  storageSnapshotsKey a `prefix_of` k →
  in_prefix_range SnapshotStoragePrefix k = true.
Proof.
  unfold storageSnapshotsKey, in_prefix_range. intros Hp.
  apply andb_true_iff. split; apply bool_decide_eq_true_2.
  - etrans; [|exact Hp]. by apply prefix_app_r.
  - apply prefix_length in Hp. rewrite length_app, hash_len in Hp. lia.
Qed.

(** An account key in the range would start with the storage prefix. *)
Lemma account_key_in_range (a h : Hash) :
  storageSnapshotsKey a `prefix_of` accountSnapshotKey h →
  SnapshotStoragePrefix `prefix_of` SnapshotAccountPrefix.
Proof.
  unfold storageSnapshotsKey, accountSnapshotKey. intros Hp.
  apply (prefix_of_shorter _ _ (SnapshotAccountPrefix ++ hash_bytes h)).
  - etrans; [|exact Hp]. by apply prefix_app_r.
  - by apply prefix_app_r.
  - apply prefix_length in Hp. rewrite !length_app, !hash_len in Hp. lia.
Qed.

Lemma iterate_only_storage (db : DB) (a : Hash) (r : record) (v : bytes) :
  storage_range_exclusive = true →
  (record_key r, v) ∈ IterateStorageSnapshots db a →
  ∃ s, r = StorageLeaf a s.
Proof.
  unfold storage_range_exclusive.
  intros [Hfix Hacc]%andb_true_iff [_ Hp]%iterate_range.
  rewrite forallb_forall in Hfix. apply negb_true_iff in Hacc.
  destruct (fixed_or_leaf r) as [Hr|Hr].
  - assert (In (record_key r) fixed_keys) as Hin.
    { apply list_elem_of_In. rewrite fixed_keys_records.
      by apply list_elem_of_fmap_2. }
    apply Hfix in Hin. apply negb_true_iff in Hin.
    by rewrite (in_prefix_range_storage a) in Hin.
  - destruct r as [|h|a' s| | | |]; try done; simpl in Hp.
    + apply account_key_in_range in Hp.
      by rewrite bool_decide_eq_true_2 in Hacc.
    + apply storageSnapshotsKey_prefix_inv in Hp as ->. by exists s.
Qed.

(** The storage iterator of [a] yields no slot of another account,
    under any schema. *)
Lemma iterate_skips_other_accounts (db : DB) (a a' s : Hash) (v : bytes) :
  a' ≠ a → (storageSnapshotKey a' s, v) ∉ IterateStorageSnapshots db a.
Proof.
  intros Hne [_ Hp]%iterate_range.
  apply storageSnapshotsKey_prefix_inv in Hp. by apply Hne.
Qed.


End FrameAndIteration.

(** ** Decoding the recovery number *)

Lemma byte_of_Z_eq (x : Z) (b : byte) :
  x mod 256 = Z_of_byte b → byte_of_Z x = b.
Proof.
  intros E. unfold byte_of_Z. rewrite E. unfold Z_of_byte.
  by rewrite N2Z.id, Byte.of_to_N.
Qed.

(** Eight bytes read as a big-endian number stay within uint64. *)
Lemma be_value_range (b : bytes) :
  length b = 8%nat → 0 ≤ be_value b ≤ uint64_max.
Proof.
  intros Hlen. do 8 (destruct b as [|? b]; [done|]).
  destruct b; [|done]. unfold be_value, uint64_max. simpl.
  repeat match goal with
  | |- context [Z_of_byte ?x] =>
      pose proof (Z_of_byte_range x); generalize dependent (Z_of_byte x);
      intros
  end.
  lia.
Qed.

(** Encoding the big-endian value of eight bytes gives the bytes back. *)
Lemma PutUint64_be_value (b : bytes) :
  length b = 8%nat → PutUint64 (be_value b) = b.
Proof.
  intros Hlen. do 8 (destruct b as [|? b]; [done|]).
  destruct b; [|done]. unfold be_value, PutUint64. simpl.
  rewrite !Z.shiftr_div_pow2 by lia.
  repeat f_equal; apply byte_of_Z_eq;
    repeat match goal with
    | |- context [Z_of_byte ?x] =>
        pose proof (Z_of_byte_range x); generalize dependent (Z_of_byte x);
        intros
    end;
    Z.div_mod_to_equations; lia.
Qed.

(** [Uint64] of eight bytes is their big-endian value. *)
Lemma Uint64_be_value (b : bytes) :
  length b = 8%nat → Uint64 b = Returned (be_value b).
Proof.
  intros Hlen. rewrite <- (PutUint64_be_value b Hlen) at 1.
  apply Uint64_PutUint64. by apply be_value_range.
Qed.

(** ** Further properties of the accessors *)

Section MoreAccessorProperties.
Context `{Schema} {DB : Type} `{StoreContract DB}.

(** The store after a write or delete accessor that returned: the store
    before, changed at the key of the record only. *)
Lemma run_contents (db db' : DB) (m : mutation) :
  run db m = Returned db' →
  contents db' =
    match payload m with
    | Some value => <[record_key (mutated m):=value]> (contents db)
    | None => delete (record_key (mutated m)) (contents db)
    end.
Proof.
  intros Hrun. destruct (run_store_call db m) as [msg E].
  rewrite E in Hrun. apply crit_on_error_Returned in Hrun.
  unfold store_call in Hrun. destruct (payload m).
  - by apply Put_contents in Hrun.
  - by apply Delete_contents in Hrun.
Qed.

(** Stores with the same contents read the same. *)
Lemma read_contents (db db' : DB) (r : record) :
  contents db = contents db' → read db r = read db' r.
Proof. intros E. apply read_Get. by rewrite !Get_contents, E. Qed.

(** X1. After [WriteSnapshotJournal db journal] has returned,
    [ReadSnapshotJournal] returns [journal]; after a following
    [DeleteSnapshotJournal] has returned it returns no data. *)
Theorem snapshot_journal_roundtrip (db db1 : DB) (journal : bytes) :
  WriteSnapshotJournal db journal = Returned db1 →
  ReadSnapshotJournal db1 = journal
  ∧ ∀ db2, DeleteSnapshotJournal db1 = Returned db2 →
           ReadSnapshotJournal db2 = [].
Proof.
  unfold WriteSnapshotJournal, DeleteSnapshotJournal, ReadSnapshotJournal.
  intros E%crit_on_error_Returned. split.
  - pose proof (Get_Put _ _ _ _ E) as G.
    by destruct (Get db1 snapshotJournalKey).
  - intros db2 D%crit_on_error_Returned.
    pose proof (Get_Delete _ _ _ D) as G.
    by destruct (Get db2 snapshotJournalKey).
Qed.

(** X2. After [WriteSnapshotGenerator db generator] has returned,
    [ReadSnapshotGenerator] returns [generator]; after a following
    [DeleteSnapshotGenerator] has returned it returns no data. *)
Theorem snapshot_generator_roundtrip (db db1 : DB) (generator : bytes) :
  WriteSnapshotGenerator db generator = Returned db1 →
  ReadSnapshotGenerator db1 = generator
  ∧ ∀ db2, DeleteSnapshotGenerator db1 = Returned db2 →
           ReadSnapshotGenerator db2 = [].
Proof.
  unfold WriteSnapshotGenerator, DeleteSnapshotGenerator,
    ReadSnapshotGenerator.
  intros E%crit_on_error_Returned. split.
  - pose proof (Get_Put _ _ _ _ E) as G.
    by destruct (Get db1 snapshotGeneratorKey).
  - intros db2 D%crit_on_error_Returned.
    pose proof (Get_Delete _ _ _ D) as G.
    by destruct (Get db2 snapshotGeneratorKey).
Qed.

(** X3. After [WriteSnapshotSyncStatus db status] has returned,
    [ReadSnapshotSyncStatus] returns [status]; after a following
    [DeleteSnapshotSyncStatus] has returned it returns no data. *)
Theorem snapshot_sync_status_roundtrip (db db1 : DB) (status : bytes) :
  WriteSnapshotSyncStatus db status = Returned db1 →
  ReadSnapshotSyncStatus db1 = status
  ∧ ∀ db2, DeleteSnapshotSyncStatus db1 = Returned db2 →
           ReadSnapshotSyncStatus db2 = [].
Proof.
  unfold WriteSnapshotSyncStatus, DeleteSnapshotSyncStatus,
    ReadSnapshotSyncStatus.
  intros E%crit_on_error_Returned. split.
  - pose proof (Get_Put _ _ _ _ E) as G.
    by destruct (Get db1 snapshotSyncStatusKey).
  - intros db2 D%crit_on_error_Returned.
    pose proof (Get_Delete _ _ _ D) as G.
    by destruct (Get db2 snapshotSyncStatusKey).
Qed.

(** X4. After [DeleteSnapshotRoot] has returned, the snapshot-root key is
    absent and [ReadSnapshotRoot] returns the zero hash, whatever root was
    stored before. *)
Theorem snapshot_root_deleted (db db' : DB) :
  DeleteSnapshotRoot db = Returned db' →
  contents db' !! snapshotRootKey = None
  ∧ ReadSnapshotRoot db' = zero_hash.
Proof.
  unfold DeleteSnapshotRoot. intros D%crit_on_error_Returned.
  split.
  - rewrite (Delete_contents _ _ _ D). apply lookup_delete_eq.
  - unfold ReadSnapshotRoot. pose proof (Get_Delete _ _ _ D) as G.
    destruct (Get db' snapshotRootKey) as [data e]. simpl in G.
    by subst data.
Qed.

(** X5. After [DeleteStorageSnapshot db a s] has returned,
    [ReadStorageSnapshot] at [(a, s)] returns no data and the storage
    iterator of [a] no longer yields the slot. *)
Theorem storage_snapshot_deleted (db db' : DB) (a s : Hash) :
  DeleteStorageSnapshot db a s = Returned db' →
  ReadStorageSnapshot db' a s = []
  ∧ ∀ v, (storageSnapshotKey a s, v) ∉ IterateStorageSnapshots db' a.
Proof.
  unfold DeleteStorageSnapshot, ReadStorageSnapshot.
  intros D%crit_on_error_Returned. split.
  - pose proof (Get_Delete _ _ _ D) as G.
    by destruct (Get db' (storageSnapshotKey a s)).
  - intros v [Hin _]%iterate_range.
    by rewrite (Delete_contents _ _ _ D), lookup_delete_eq in Hin.
Qed.

(** X6. [ReadSnapshotRoot] returns a hash other than the zero hash
    exactly when the store holds the 32 bytes of that hash under the
    snapshot-root key. *)
Theorem snapshot_root_read_iff_stored (db : DB) (root : Hash) :
  root ≠ zero_hash →
  ReadSnapshotRoot db = root ↔
  contents db !! snapshotRootKey = Some (hash_bytes root).
Proof.
  intros Hnz. split; [|apply ReadSnapshotRoot_stored].
  unfold ReadSnapshotRoot. pose proof (Get_contents db snapshotRootKey) as G.
  destruct (Get db snapshotRootKey) as [data e]. simpl in G.
  destruct (decide (length data ≠ HashLength)) as [|Hlen]; [congruence|].
  apply dec_stable in Hlen. intros <-.
  rewrite (BytesToHash_exact _ Hlen).
  destruct (contents db !! snapshotRootKey) as [blob|]; simpl in G.
  - by subst.
  - by subst data.
Qed.

Lemma recovery_number_read_stored (db : DB) (n : Z) :
  ReadSnapshotRecoveryNumber db = Returned (Some n) →
  ∃ blob, contents db !! snapshotRecoveryKey = Some blob
          ∧ length blob = 8%nat ∧ be_value blob = n.
Proof.
  unfold ReadSnapshotRecoveryNumber.
  pose proof (Get_contents db snapshotRecoveryKey) as G.
  destruct (Get db snapshotRecoveryKey) as [data e]. simpl in G.
  destruct (decide (length data = 0%nat)); [done|].
  destruct (decide (length data ≠ 8%nat)) as [|Hlen]; [done|].
  apply dec_stable in Hlen. rewrite (Uint64_be_value _ Hlen).
  intros [= <-].
  destruct (contents db !! snapshotRecoveryKey) as [blob|]; simpl in G.
  - subst. by exists blob.
  - by subst data.
Qed.

(** X7. [ReadSnapshotRecoveryNumber] returns a non-nil pointer to [n]
    exactly when the store holds under the recovery key a blob of eight
    bytes whose big-endian value is [n]; such an [n] is within uint64. *)
Theorem recovery_number_read_iff_stored (db : DB) (n : Z) :
  (ReadSnapshotRecoveryNumber db = Returned (Some n) ↔
   ∃ blob, contents db !! snapshotRecoveryKey = Some blob
           ∧ length blob = 8%nat ∧ be_value blob = n)
  ∧ (ReadSnapshotRecoveryNumber db = Returned (Some n) →
     0 ≤ n ≤ uint64_max).
Proof.
  split; [split; [apply recovery_number_read_stored|]|].
  - intros (blob & E & Hlen & <-). unfold ReadSnapshotRecoveryNumber.
    pose proof (Get_present _ _ _ E) as G.
    destruct (Get db snapshotRecoveryKey) as [data e]. simpl in G.
    subst data. rewrite Hlen.
    rewrite decide_False by done. rewrite decide_False by (by intros []).
    by rewrite (Uint64_be_value _ Hlen).
  - intros (blob & _ & Hlen & <-)%recovery_number_read_stored.
    by apply be_value_range.
Qed.

(** X8. Writing back the number [ReadSnapshotRecoveryNumber] has just
    returned leaves the contents of the store as they were. *)
Theorem recovery_number_write_back (db db' : DB) (n : Z) :
  ReadSnapshotRecoveryNumber db = Returned (Some n) →
  WriteSnapshotRecoveryNumber db n = Returned db' →
  contents db' = contents db.
Proof.
  intros (blob & E & Hlen & <-)%recovery_number_read_stored W.
  unfold WriteSnapshotRecoveryNumber in W. apply crit_on_error_Returned in W.
  rewrite (Put_contents _ _ _ _ W), (PutUint64_be_value _ Hlen).
  by apply insert_id.
Qed.

End MoreAccessorProperties.

(** ** How the accessors compose *)

Section Composition.
Context `{Schema} {DB : Type} `{StoreContract DB}.

(** X9. A write or delete accessor changes the store at the key of its
    record and nowhere else: every other key of the store, whatever it
    belongs to, holds what it held before. *)
Theorem mutation_touches_one_key (db db' : DB) (m : mutation) (k : bytes) :
  run db m = Returned db' →
  k ≠ record_key (mutated m) →
  contents db' !! k = contents db !! k ∧ (Get db' k).1 = (Get db k).1.
Proof.
  intros Hrun Hne.
  assert (contents db' !! k = contents db !! k) as E.
  { rewrite (run_contents _ _ _ Hrun). destruct (payload m).
    - by rewrite lookup_insert_ne.
    - by rewrite lookup_delete_ne. }
  split; [done|]. by rewrite !Get_contents, E.
Qed.

(** X10. The later of two accessors on one record wins: after [m1] and
    then [m2] on the same record the store holds, and every read returns,
    what it would after [m2] alone. *)
Theorem later_mutation_wins (db db1 db2 db2' : DB) (m1 m2 : mutation) :
  mutated m1 = mutated m2 →
  run db m1 = Returned db1 →
  run db1 m2 = Returned db2 →
  run db m2 = Returned db2' →
  contents db2 = contents db2' ∧ ∀ r, read db2 r = read db2' r.
Proof.
  intros Hsame R1 R2 R2'.
  assert (contents db2 = contents db2') as E.
  { rewrite (run_contents _ _ _ R2), (run_contents _ _ _ R2'),
      (run_contents _ _ _ R1), Hsame.
    destruct (payload m2), (payload m1);
      by rewrite ?insert_insert_eq, ?insert_delete_eq,
                 ?delete_insert_eq, ?delete_delete_eq. }
  split; [done|]. intros r. by apply read_contents.
Qed.

(** X11. Under a schema passing [schema_disjoint], accessors on two
    different records commute: in either order they leave the same store
    contents and the same reads. *)
Theorem mutations_commute (db db1 db12 db2 db21 : DB) (m1 m2 : mutation) :
  schema_disjoint = true →
  mutated m1 ≠ mutated m2 →
  run db m1 = Returned db1 → run db1 m2 = Returned db12 →
  run db m2 = Returned db2 → run db2 m1 = Returned db21 →
  contents db12 = contents db21 ∧ ∀ r, read db12 r = read db21 r.
Proof.
  intros Hok Hne R1 R12 R2 R21.
  assert (record_key (mutated m1) ≠ record_key (mutated m2)) as Hkey.
  { intros E. by apply record_key_inj in E. }
  assert (contents db12 = contents db21) as E.
  { rewrite (run_contents _ _ _ R12), (run_contents _ _ _ R21),
      (run_contents _ _ _ R1), (run_contents _ _ _ R2).
    destruct (payload m1), (payload m2).
    - by apply insert_insert_ne.
    - by rewrite delete_insert_ne.
    - by rewrite delete_insert_ne.
    - apply delete_delete. }
  split; [done|]. intros r. by apply read_contents.
Qed.

(** X12. Writing the value a record already holds, or deleting a record
    that is absent, leaves the contents of the store as they were; so does
    repeating an accessor that has just returned. *)
Theorem mutation_idempotent (db db' : DB) (m : mutation) :
  contents db !! record_key (mutated m) = payload m →
  run db m = Returned db' →
  contents db' = contents db
  ∧ ∀ db'', run db' m = Returned db'' → contents db'' = contents db.
Proof.
  intros Hheld Hrun.
  assert (∀ d d', contents d !! record_key (mutated m) = payload m →
                  run d m = Returned d' → contents d' = contents d) as Hid.
  { intros d d' Hd Hr. rewrite (run_contents _ _ _ Hr).
    destruct (payload m).
    - by apply insert_id.
    - by apply delete_id. }
  assert (contents db' = contents db) as E by by apply Hid.
  split; [done|]. intros db'' Hrun'. rewrite <- E. apply Hid; [|done].
  by rewrite E.
Qed.

(** X13. The storage iterator agrees with the point read: a slot
    [(a, s)] it yields with value [v] reads as [v] through
    [ReadStorageSnapshot], and a slot that reads as data that is not empty
    is yielded with that data. *)
Theorem storage_iterator_agrees_with_read (db : DB) (a s : Hash) :
  (∀ v, (storageSnapshotKey a s, v) ∈ IterateStorageSnapshots db a →
        ReadStorageSnapshot db a s = v)
  ∧ (ReadStorageSnapshot db a s ≠ [] →
     (storageSnapshotKey a s, ReadStorageSnapshot db a s)
     ∈ IterateStorageSnapshots db a).
Proof.
  assert (ReadStorageSnapshot db a s
          = default [] (contents db !! storageSnapshotKey a s)) as R.
  { unfold ReadStorageSnapshot.
    pose proof (Get_contents db (storageSnapshotKey a s)) as G.
    by destruct (Get db (storageSnapshotKey a s)). }
  rewrite R. split.
  - intros v [E _]%iterate_range. by rewrite E.
  - intros Hdata. apply iterate_range. split.
    + by destruct (contents db !! storageSnapshotKey a s).
    + apply storageSnapshotKey_prefix.
Qed.

(** X14. The storage iterators of two different accounts yield no key in
    common, under any schema. *)
Theorem storage_iterators_disjoint (db : DB) (a a' : Hash) (k v v' : bytes) :
  a ≠ a' →
  (k, v) ∈ IterateStorageSnapshots db a →
  (k, v') ∉ IterateStorageSnapshots db a'.
Proof.
  intros Hne [_ Hp]%iterate_range [_ Hp']%iterate_range. apply Hne.
  unfold storageSnapshotsKey in Hp, Hp'.
  assert (SnapshotStoragePrefix ++ hash_bytes a
          = SnapshotStoragePrefix ++ hash_bytes a') as E.
  { apply (prefix_length_eq _ _
             (prefix_of_shorter _ _ k Hp Hp' ltac:(by rewrite !length_app, !hash_len))).
    by rewrite !length_app, !hash_len. }
  apply hash_eq. by apply app_inv_head in E.
Qed.

(** A record whose key lies under the storage prefix of [a] is a storage
    leaf of [a], under a schema passing [storage_range_exclusive]. *)
Lemma key_in_storage_range (a : Hash) (r : record) :
  storage_range_exclusive = true →
  storageSnapshotsKey a `prefix_of` record_key r →
  ∃ s, r = StorageLeaf a s.
Proof.
  unfold storage_range_exclusive. intros [Hfix Hacc]%andb_true_iff Hp.
  rewrite forallb_forall in Hfix. apply negb_true_iff in Hacc.
  destruct (fixed_or_leaf r) as [Hr|Hr].
  - assert (In (record_key r) fixed_keys) as Hin.
    { apply list_elem_of_In. rewrite fixed_keys_records.
      by apply list_elem_of_fmap_2. }
    apply Hfix in Hin. apply negb_true_iff in Hin.
    by rewrite (in_prefix_range_storage a) in Hin.
  - destruct r as [|h|a' s| | | |]; try done; simpl in Hp.
    + apply account_key_in_range in Hp.
      by rewrite bool_decide_eq_true_2 in Hacc.
    + apply storageSnapshotsKey_prefix_inv in Hp as ->. by exists s.
Qed.

(** X15. Under a schema passing [storage_range_exclusive], a write or
    delete accessor on anything but a storage leaf of [a] leaves what the
    storage iterator of [a] yields as it was. *)
Theorem storage_iterator_frame (db db' : DB) (m : mutation) (a : Hash) :
  storage_range_exclusive = true →
  (∀ s, mutated m ≠ StorageLeaf a s) →
  run db m = Returned db' →
  ∀ k v, (k, v) ∈ IterateStorageSnapshots db' a ↔
         (k, v) ∈ IterateStorageSnapshots db a.
Proof.
  intros Hok Hother Hrun k v. rewrite !iterate_range.
  assert (storageSnapshotsKey a `prefix_of` k →
          contents db' !! k = contents db !! k) as E.
  { intros Hp. rewrite (run_contents _ _ _ Hrun).
    assert (record_key (mutated m) ≠ k) as Hne.
    { intros <-. destruct (key_in_storage_range a _ Hok Hp) as [s ?].
      by apply (Hother s). }
    destruct (payload m).
    - by rewrite lookup_insert_ne.
    - by rewrite lookup_delete_ne. }
  split; intros [Hin Hp]; (split; [|done]); by rewrite ?E in *.
Qed.
(** X16. A key of storage-leaf length that the storage iterator of [a]
    yields is the key of exactly one slot of [a]: stripping the prefix and
    the account hash leaves the slot hash. *)
Theorem storage_iterator_key_decodes (db : DB) (a : Hash) (k v : bytes) :
  (k, v) ∈ IterateStorageSnapshots db a →
  length k = (length SnapshotStoragePrefix + 2 * HashLength)%nat →
  ∃ s, k = storageSnapshotKey a s
       ∧ hash_bytes s = drop (length SnapshotStoragePrefix + HashLength) k
       ∧ ∀ s', k = storageSnapshotKey a s' → s' = s.
Proof.
  intros [_ [rest ->]]%iterate_range Hlen.
  unfold storageSnapshotsKey in *.
  rewrite !length_app, hash_len in Hlen.
  assert (length rest = HashLength) as Hrest by lia.
  exists (mkHash rest Hrest). split; [|split].
  - unfold storageSnapshotKey. simpl. by rewrite <- app_assoc.
  - simpl. rewrite drop_app_length'; [done|].
    by rewrite length_app, hash_len.
  - intros s' E. unfold storageSnapshotKey in E.
    rewrite <- app_assoc in E. do 2 apply app_inv_head in E.
    by apply hash_eq.
Qed.
End Composition.
(** ** The accessors on the in-memory store *)

Section OnMemdb.
Local Existing Instance sample_schema.

Example sample_schema_disjoint : schema_disjoint = true.
Proof. vm_compute. reflexivity. Qed.

Example sample_schema_exclusive : storage_range_exclusive = true.
Proof. vm_compute. reflexivity. Qed.

Example write_root_on_faulty_store :
  WriteSnapshotRoot mem_faulty h1
  = Crit "Failed to store snapshot root" "disk full"%string.
Proof. reflexivity. Qed.

Example read_root_of_short_blob :
  ReadSnapshotRoot (mem_with snapshotRootKey [x01; x02]) = zero_hash.
Proof. vm_compute. reflexivity. Qed.

Example read_recovery_of_short_blob :
  ReadSnapshotRecoveryNumber (mem_with snapshotRecoveryKey [x01; x02; x03])
  = Returned None.
Proof. vm_compute. reflexivity. Qed.

Example put_uint64_bytes :
  PutUint64 0x0102030405060708 = [x01; x02; x03; x04; x05; x06; x07; x08].
Proof. vm_compute. reflexivity. Qed.

Lemma write_delete_crit_iff_store_error_witness :
  (store_call mem_faulty (WriteRoot h1)).2 = Some "disk full"%string
  ∧ ∃ msg, run mem_faulty (WriteRoot h1) = Crit msg "disk full"%string.
Proof.
  split; [reflexivity|].
  apply (write_delete_crit_iff_store_error mem_faulty (WriteRoot h1)).
  reflexivity.
Defined.

Lemma snapshot_root_roundtrip_witness :
  WriteSnapshotRoot mem_empty h1
  = Returned (mem_with snapshotRootKey (hash_bytes h1))
  ∧ ReadSnapshotRoot (mem_with snapshotRootKey (hash_bytes h1)) = h1.
Proof.
  split; [reflexivity|].
  apply (snapshot_root_roundtrip mem_empty _ h1). reflexivity.
Defined.

Lemma recovery_number_roundtrip_witness :
  0 ≤ 1000 ≤ uint64_max
  ∧ WriteSnapshotRecoveryNumber mem_empty 1000
    = Returned (mem_with snapshotRecoveryKey (PutUint64 1000))
  ∧ ReadSnapshotRecoveryNumber (mem_with snapshotRecoveryKey (PutUint64 1000))
    = Returned (Some 1000).
Proof.
  assert (0 ≤ 1000 ≤ uint64_max) as Hn by (unfold uint64_max; lia).
  split; [exact Hn|]. split; [reflexivity|].
  apply (recovery_number_roundtrip mem_empty _ 1000 Hn). reflexivity.
Defined.


Lemma storage_snapshot_roundtrip_witness :
  WriteStorageSnapshot mem_empty h1 h2 [x0c]
  = Returned (mem_with (storageSnapshotKey h1 h2) [x0c])
  ∧ ReadStorageSnapshot (mem_with (storageSnapshotKey h1 h2) [x0c]) h1 h2
    = [x0c].
Proof.
  split; [reflexivity|].
  apply (storage_snapshot_roundtrip mem_empty _ h1 h2 [x0c]). reflexivity.
Defined.

Lemma recovery_number_deleted_witness :
  DeleteSnapshotRecoveryNumber (mem_with snapshotRecoveryKey (PutUint64 7))
  = Returned (MemDB (delete snapshotRecoveryKey
                       (<[snapshotRecoveryKey:=PutUint64 7]> ∅)) None)
  ∧ ReadSnapshotRecoveryNumber
      (MemDB (delete snapshotRecoveryKey
                (<[snapshotRecoveryKey:=PutUint64 7]> ∅)) None)
    = Returned None.
Proof.
  split; [reflexivity|].
  apply (recovery_number_deleted
           (mem_with snapshotRecoveryKey (PutUint64 7))).
  reflexivity.
Defined.

End OnMemdb.

(** ** Further evaluation on the in-memory store *)

Section MoreOnMemdb.
Local Existing Instance sample_schema.

Lemma snapshot_journal_roundtrip_witness :
  WriteSnapshotJournal mem_empty [x01; x02]
  = Returned (mem_with snapshotJournalKey [x01; x02])
  ∧ ReadSnapshotJournal (mem_with snapshotJournalKey [x01; x02])
    = [x01; x02].
Proof.
  split; [reflexivity|].
  apply (snapshot_journal_roundtrip mem_empty _ [x01; x02]). reflexivity.
Defined.

Lemma snapshot_generator_roundtrip_witness :
  WriteSnapshotGenerator mem_empty [x03]
  = Returned (mem_with snapshotGeneratorKey [x03])
  ∧ ReadSnapshotGenerator (mem_with snapshotGeneratorKey [x03]) = [x03].
Proof.
  split; [reflexivity|].
  apply (snapshot_generator_roundtrip mem_empty _ [x03]). reflexivity.
Defined.

Lemma snapshot_sync_status_roundtrip_witness :
  WriteSnapshotSyncStatus mem_empty [x04]
  = Returned (mem_with snapshotSyncStatusKey [x04])
  ∧ ReadSnapshotSyncStatus (mem_with snapshotSyncStatusKey [x04]) = [x04].
Proof.
  split; [reflexivity|].
  apply (snapshot_sync_status_roundtrip mem_empty _ [x04]). reflexivity.
Defined.

Lemma snapshot_root_deleted_witness :
  DeleteSnapshotRoot (mem_with snapshotRootKey (hash_bytes h1))
  = Returned (MemDB (delete snapshotRootKey
                       (<[snapshotRootKey:=hash_bytes h1]> ∅)) None)
  ∧ ReadSnapshotRoot
      (MemDB (delete snapshotRootKey
                (<[snapshotRootKey:=hash_bytes h1]> ∅)) None)
    = zero_hash.
Proof.
  split; [reflexivity|].
  apply (snapshot_root_deleted (mem_with snapshotRootKey (hash_bytes h1))).
  reflexivity.
Defined.

Lemma storage_snapshot_deleted_witness :
  DeleteStorageSnapshot (mem_with (storageSnapshotKey h1 h2) [x0c]) h1 h2
  = Returned (MemDB (delete (storageSnapshotKey h1 h2)
                       (<[storageSnapshotKey h1 h2:=[x0c]]> ∅)) None)
  ∧ ReadStorageSnapshot
      (MemDB (delete (storageSnapshotKey h1 h2)
                (<[storageSnapshotKey h1 h2:=[x0c]]> ∅)) None) h1 h2
    = [].
Proof.
  split; [reflexivity|].
  apply (storage_snapshot_deleted
           (mem_with (storageSnapshotKey h1 h2) [x0c]) _ h1 h2).
  reflexivity.
Defined.

Lemma snapshot_root_read_iff_stored_witness :
  h1 ≠ zero_hash
  ∧ ReadSnapshotRoot (mem_with snapshotRootKey (hash_bytes h1)) = h1.
Proof.
  assert (h1 ≠ zero_hash) as Hnz.
  { intros E. apply (f_equal hash_bytes) in E. vm_compute in E.
    discriminate E. }
  split; [exact Hnz|].
  apply (snapshot_root_read_iff_stored
           (mem_with snapshotRootKey (hash_bytes h1)) h1 Hnz).
  vm_compute. reflexivity.
Defined.

Lemma recovery_number_read_iff_stored_witness :
  ReadSnapshotRecoveryNumber
    (mem_with snapshotRecoveryKey [x00; x00; x00; x00; x00; x00; x01; x02])
  = Returned (Some 258)
  ∧ 0 ≤ 258 ≤ uint64_max.
Proof.
  assert (ReadSnapshotRecoveryNumber
            (mem_with snapshotRecoveryKey
               [x00; x00; x00; x00; x00; x00; x01; x02])
          = Returned (Some 258)) as R by (vm_compute; reflexivity).
  split; [exact R|].
  by apply (recovery_number_read_iff_stored
              (mem_with snapshotRecoveryKey
                 [x00; x00; x00; x00; x00; x00; x01; x02]) 258).
Defined.

Lemma recovery_number_write_back_witness :
  ReadSnapshotRecoveryNumber (mem_with snapshotRecoveryKey (PutUint64 7))
  = Returned (Some 7)
  ∧ WriteSnapshotRecoveryNumber (mem_with snapshotRecoveryKey (PutUint64 7)) 7
    = Returned (MemDB (<[snapshotRecoveryKey:=PutUint64 7]>
                         (<[snapshotRecoveryKey:=PutUint64 7]> ∅)) None)
  ∧ contents (MemDB (<[snapshotRecoveryKey:=PutUint64 7]>
                       (<[snapshotRecoveryKey:=PutUint64 7]> ∅)) None)
    = contents (mem_with snapshotRecoveryKey (PutUint64 7)).
Proof.
  assert (ReadSnapshotRecoveryNumber
            (mem_with snapshotRecoveryKey (PutUint64 7))
          = Returned (Some 7)) as R by (vm_compute; reflexivity).
  split; [exact R|]. split; [reflexivity|].
  apply (recovery_number_write_back
           (mem_with snapshotRecoveryKey (PutUint64 7))
           (MemDB (<[snapshotRecoveryKey:=PutUint64 7]>
                     (<[snapshotRecoveryKey:=PutUint64 7]> ∅)) None) 7 R).
  reflexivity.
Defined.

Lemma mutation_touches_one_key_witness :
  run mem_empty (WriteJournal [x01])
  = Returned (mem_with snapshotJournalKey [x01])
  ∧ [xff] ≠ record_key (mutated (WriteJournal [x01]))
  ∧ (Get (mem_with snapshotJournalKey [x01]) [xff]).1
    = (Get mem_empty [xff]).1.
Proof.
  assert ([xff] ≠ record_key (mutated (WriteJournal [x01]))) as Hne.
  { vm_compute. discriminate. }
  split; [reflexivity|]. split; [exact Hne|].
  by apply (mutation_touches_one_key mem_empty _ (WriteJournal [x01]) [xff]).
Defined.

Lemma later_mutation_wins_witness :
  mutated (WriteJournal [x01]) = mutated (WriteJournal [x02])
  ∧ run mem_empty (WriteJournal [x01])
    = Returned (mem_with snapshotJournalKey [x01])
  ∧ run (mem_with snapshotJournalKey [x01]) (WriteJournal [x02])
    = Returned (MemDB (<[snapshotJournalKey:=[x02]]>
                         (<[snapshotJournalKey:=[x01]]> ∅)) None)
  ∧ run mem_empty (WriteJournal [x02])
    = Returned (mem_with snapshotJournalKey [x02])
  ∧ read (MemDB (<[snapshotJournalKey:=[x02]]>
                   (<[snapshotJournalKey:=[x01]]> ∅)) None) Journal
    = read (mem_with snapshotJournalKey [x02]) Journal.
Proof.
  do 4 (split; [reflexivity|]).
  by apply (later_mutation_wins mem_empty
              (mem_with snapshotJournalKey [x01]) _ _
              (WriteJournal [x01]) (WriteJournal [x02])).
Defined.

Lemma mutations_commute_witness :
  schema_disjoint = true
  ∧ mutated (WriteJournal [x01]) ≠ mutated (WriteGenerator [x02])
  ∧ contents (MemDB (<[snapshotGeneratorKey:=[x02]]>
                       (<[snapshotJournalKey:=[x01]]> ∅)) None)
    = contents (MemDB (<[snapshotJournalKey:=[x01]]>
                         (<[snapshotGeneratorKey:=[x02]]> ∅)) None).
Proof.
  assert (schema_disjoint = true) as Hok by (vm_compute; reflexivity).
  assert (mutated (WriteJournal [x01]) ≠ mutated (WriteGenerator [x02]))
    as Hne by (simpl; discriminate).
  split; [exact Hok|]. split; [exact Hne|].
  by apply (mutations_commute mem_empty
              (mem_with snapshotJournalKey [x01])
              (MemDB (<[snapshotGeneratorKey:=[x02]]>
                        (<[snapshotJournalKey:=[x01]]> ∅)) None)
              (mem_with snapshotGeneratorKey [x02])
              (MemDB (<[snapshotJournalKey:=[x01]]>
                        (<[snapshotGeneratorKey:=[x02]]> ∅)) None)
              (WriteJournal [x01]) (WriteGenerator [x02]) Hok Hne).
Defined.

Lemma mutation_idempotent_witness :
  contents (mem_with snapshotJournalKey [x01])
    !! record_key (mutated (WriteJournal [x01]))
  = payload (WriteJournal [x01])
  ∧ run (mem_with snapshotJournalKey [x01]) (WriteJournal [x01])
    = Returned (MemDB (<[snapshotJournalKey:=[x01]]>
                         (<[snapshotJournalKey:=[x01]]> ∅)) None)
  ∧ contents (MemDB (<[snapshotJournalKey:=[x01]]>
                       (<[snapshotJournalKey:=[x01]]> ∅)) None)
    = contents (mem_with snapshotJournalKey [x01]).
Proof.
  assert (contents (mem_with snapshotJournalKey [x01])
            !! record_key (mutated (WriteJournal [x01]))
          = payload (WriteJournal [x01])) as Hheld
    by (vm_compute; reflexivity).
  split; [exact Hheld|]. split; [reflexivity|].
  by apply (mutation_idempotent (mem_with snapshotJournalKey [x01])
              (MemDB (<[snapshotJournalKey:=[x01]]>
                        (<[snapshotJournalKey:=[x01]]> ∅)) None)
              (WriteJournal [x01]) Hheld).
Defined.

Lemma storage_iterator_agrees_with_read_witness :
  (storageSnapshotKey h1 h2, [x0c])
  ∈ IterateStorageSnapshots (mem_with (storageSnapshotKey h1 h2) [x0c]) h1
  ∧ ReadStorageSnapshot (mem_with (storageSnapshotKey h1 h2) [x0c]) h1 h2
    = [x0c].
Proof.
  assert ((storageSnapshotKey h1 h2, [x0c])
          ∈ IterateStorageSnapshots
              (mem_with (storageSnapshotKey h1 h2) [x0c]) h1) as Hin.
  { apply (bool_decide_unpack _). vm_compute. reflexivity. }
  split; [exact Hin|].
  by apply (storage_iterator_agrees_with_read
              (mem_with (storageSnapshotKey h1 h2) [x0c]) h1 h2).
Defined.

Lemma storage_iterators_disjoint_witness :
  h1 ≠ h2
  ∧ (storageSnapshotKey h1 h2, [x0c])
    ∈ IterateStorageSnapshots (mem_with (storageSnapshotKey h1 h2) [x0c]) h1
  ∧ (storageSnapshotKey h1 h2, [x0c])
    ∉ IterateStorageSnapshots (mem_with (storageSnapshotKey h1 h2) [x0c]) h2.
Proof.
  assert (h1 ≠ h2) as Hne.
  { intros E. apply (f_equal hash_bytes) in E. vm_compute in E.
    discriminate E. }
  assert ((storageSnapshotKey h1 h2, [x0c])
          ∈ IterateStorageSnapshots
              (mem_with (storageSnapshotKey h1 h2) [x0c]) h1) as Hin.
  { apply (bool_decide_unpack _). vm_compute. reflexivity. }
  split; [exact Hne|]. split; [exact Hin|].
  exact (storage_iterators_disjoint
           (mem_with (storageSnapshotKey h1 h2) [x0c]) h1 h2
           (storageSnapshotKey h1 h2) [x0c] [x0c] Hne Hin).
Defined.

Lemma storage_iterator_frame_witness :
  storage_range_exclusive = true
  ∧ (∀ s, mutated (WriteAccount h1 [x0a]) ≠ StorageLeaf h2 s)
  ∧ run mem_empty (WriteAccount h1 [x0a])
    = Returned (mem_with (accountSnapshotKey h1) [x0a])
  ∧ ∀ k v, (k, v) ∈ IterateStorageSnapshots
                      (mem_with (accountSnapshotKey h1) [x0a]) h2
           ↔ (k, v) ∈ IterateStorageSnapshots mem_empty h2.
Proof.
  assert (storage_range_exclusive = true) as Hok by (vm_compute; reflexivity).
  assert (∀ s, mutated (WriteAccount h1 [x0a]) ≠ StorageLeaf h2 s) as Hother
    by (intros s; simpl; discriminate).
  split; [exact Hok|]. split; [exact Hother|]. split; [reflexivity|].
  apply (storage_iterator_frame mem_empty _ (WriteAccount h1 [x0a]) h2
           Hok Hother).
  reflexivity.
Defined.

Lemma storage_iterator_key_decodes_witness :
  (storageSnapshotKey h1 h2, [x0c])
  ∈ IterateStorageSnapshots (mem_with (storageSnapshotKey h1 h2) [x0c]) h1
  ∧ length (storageSnapshotKey h1 h2)
    = (length SnapshotStoragePrefix + 2 * HashLength)%nat
  ∧ ∃ s, storageSnapshotKey h1 h2 = storageSnapshotKey h1 s
         ∧ hash_bytes s
           = drop (length SnapshotStoragePrefix + HashLength)
               (storageSnapshotKey h1 h2)
         ∧ ∀ s', storageSnapshotKey h1 h2 = storageSnapshotKey h1 s' → s' = s.
Proof.
  assert ((storageSnapshotKey h1 h2, [x0c])
          ∈ IterateStorageSnapshots
              (mem_with (storageSnapshotKey h1 h2) [x0c]) h1) as Hin.
  { apply (bool_decide_unpack _). vm_compute. reflexivity. }
  split; [exact Hin|]. split; [reflexivity|].
  apply (storage_iterator_key_decodes
           (mem_with (storageSnapshotKey h1 h2) [x0c]) h1
           (storageSnapshotKey h1 h2) [x0c] Hin).
  reflexivity.
Defined.
End MoreOnMemdb.

(** ** Schemas whose keys overlap *)

Section OnSharedKeySchema.
Local Existing Instance shared_key_schema.

Example shared_key_schema_not_disjoint : schema_disjoint = false.
Proof. vm_compute. reflexivity. Qed.


End OnSharedKeySchema.

Section OnRootInStorageSchema.
Local Existing Instance root_in_storage_schema.

Example root_in_storage_schema_not_exclusive :
  storage_range_exclusive = false.
Proof. vm_compute. reflexivity. Qed.

End OnRootInStorageSchema.
